(** * The camera page [src/app/page.tsx]: capture, selection and deletion

    A shallow embedding of the [Home] component.  The three [useState]
    slices, the [videoRef] and the little the handlers observe of the
    browser (ended streams, pending [getUserMedia] promises) make up one
    record; each [useCallback] handler is a function on it, and the part of
    a render that the handlers can observe is [commit]. *)

From stdpp Require Import base list strings gmap pretty.

Open Scope Z_scope.

(** ** Data *)

(** A [MediaStream] is only ever stored, compared and stopped. *)
Definition MediaStream := nat.

(** Of the [<video>] element the page writes [srcObject] and tests the
    reference for presence. *)
Record HTMLVideoElement := mkVideo { srcObject : option MediaStream }.

(** [interface CapturedImage], lines 6-11.  [Date.now()] is a whole number
    of milliseconds. *)
Record CapturedImage := mkImage {
  id : string;
  dataUrl : string;
  selected : bool;
  timestamp : Z
}.

#[global] Instance HTMLVideoElement_eq_dec : EqDecision HTMLVideoElement.
Proof. solve_decision. Defined.

#[global] Instance CapturedImage_eq_dec : EqDecision CapturedImage.
Proof. solve_decision. Defined.

(** The component: [stream], [error], [capturedImages] are the [useState]
    slices of lines 14-16 and [videoRef] is [videoRef.current] of line 17.
    [ended] collects the streams whose tracks have been stopped and
    [pending] counts the [getUserMedia] promises not yet settled. *)
Record Home := mkHome {
  stream : option MediaStream;
  error : option string;
  capturedImages : list CapturedImage;
  videoRef : option HTMLVideoElement;
  ended : gset MediaStream;
  pending : nat
}.

(** State on first render: [useState(null)], [useState(null)],
    [useState([])], [useRef(null)]. *)
Definition initial : Home :=
  mkHome None None [] None ∅ 0%nat.

Definition setStream (v : option MediaStream) (st : Home) : Home :=
  mkHome v (error st) (capturedImages st) (videoRef st) (ended st) (pending st).

Definition setError (v : option string) (st : Home) : Home :=
  mkHome (stream st) v (capturedImages st) (videoRef st) (ended st) (pending st).

(** The updater form [setCapturedImages((prev) => ...)]. *)
Definition setCapturedImages
    (f : list CapturedImage → list CapturedImage) (st : Home) : Home :=
  mkHome (stream st) (error st) (f (capturedImages st)) (videoRef st)
         (ended st) (pending st).

(** [stream.getTracks().forEach((track) => track.stop())]: stopping an
    already stopped track does nothing. *)
Definition stopTracks (s : MediaStream) (st : Home) : Home :=
  mkHome (stream st) (error st) (capturedImages st) (videoRef st)
         ({[ s ]} ∪ ended st) (pending st).

(** ** [startCamera], lines 19-32

    The handler is [async]: it runs up to the [await], and its rest runs
    when the promise settles. *)

Definition camera_error_message : string :=
  "カメラへのアクセスに失敗しました。ブラウザの設定を確認してください。"%string.

Inductive Acquisition :=
  | Granted (mediaStream : MediaStream)
  | Rejected.

Definition startCamera_begin (st : Home) : Home :=
  let st := setError None st in
  mkHome (stream st) (error st) (capturedImages st) (videoRef st)
         (ended st) (S (pending st)).

Definition startCamera_settle (r : Acquisition) (st : Home) : Home :=
  let st := mkHome (stream st) (error st) (capturedImages st) (videoRef st)
                   (ended st) (Nat.pred (pending st)) in
  match r with
  | Granted mediaStream => setStream (Some mediaStream) st
  | Rejected => setError (Some camera_error_message) st
  end.

(** One [start()] whose promise settles before anything else happens. *)
Definition startCamera (r : Acquisition) (st : Home) : Home :=
  startCamera_settle r (startCamera_begin st).

(** ** [stopCamera], lines 34-39

    The callback is made anew whenever [stream] changes, so the [stream]
    it closes over is the one of the last render. *)

Definition stopCamera (st : Home) : Home :=
  match stream st with
  | Some s => setStream None (stopTracks s st)
  | None => st
  end.

(** ** [captureImage], lines 41-59

    What the browser hands to one call: whether [getContext("2d")] gave a
    context, the data URL of the encoded frame, and the two readings of
    [Date.now()] (line 51 and line 54). *)
Record Shot := mkShot {
  context : bool;
  jpeg : string;
  now_id : Z;
  now_timestamp : Z
}.

Definition image_id (now : Z) : string := ("img-" +:+ pretty now)%string.

Definition newImage (e : Shot) : CapturedImage :=
  mkImage (image_id (now_id e)) (jpeg e) false (now_timestamp e).

Definition captureImage (e : Shot) (st : Home) : Home :=
  match videoRef st with
  | Some _ =>
      if context e
      then setCapturedImages (λ prev, prev ++ [newImage e]) st
      else st
  | None => st
  end.

(** ** [toggleImageSelection], lines 61-67 *)

Definition toggled (img : CapturedImage) : CapturedImage :=
  mkImage (id img) (dataUrl img) (negb (selected img)) (timestamp img).

Definition toggleIn (key : string) (prev : list CapturedImage)
    : list CapturedImage :=
  (λ img, if decide (id img = key) then toggled img else img) <$> prev.

Definition toggleImageSelection (key : string) (st : Home) : Home :=
  setCapturedImages (toggleIn key) st.

(** ** [deleteSelectedImages], lines 69-71 *)

Definition keepUnselected (prev : list CapturedImage) : list CapturedImage :=
  filter (λ img, negb (selected img) = true) prev.

Definition deleteSelectedImages (st : Home) : Home :=
  setCapturedImages keepUnselected st.

(** ** Rendering

    What a re-render changes that a handler can later observe.  The
    [<video ref={videoRef}>] of lines 102-109 is in the tree exactly when
    [stream] is set, so React fills [videoRef.current] when it mounts and
    resets it to [null] when it unmounts. *)
Definition setVideoRef (v : option HTMLVideoElement) (st : Home) : Home :=
  mkHome (stream st) (error st) (capturedImages st) v (ended st) (pending st).

Definition mountVideo (st : Home) : Home :=
  match stream st with
  | Some _ => setVideoRef (Some (default (mkVideo None) (videoRef st))) st
  | None => setVideoRef None st
  end.

(** The effect of lines 73-77. *)
Definition bindPreview (st : Home) : Home :=
  match videoRef st, stream st with
  | Some _, Some s => setVideoRef (Some (mkVideo (Some s))) st
  | _, _ => st
  end.

(** The clean-up of lines 79-85, run for the stream of the previous
    render. *)
Definition releasePrevious (prev : option MediaStream) (st : Home) : Home :=
  match prev with
  | Some s => stopTracks s st
  | None => st
  end.

(** Both effects depend on [[stream]]: they run only when it changed. *)
Definition commit (prev : option MediaStream) (st : Home) : Home :=
  let st := mountVideo st in
  if decide (prev = stream st) then st
  else bindPreview (releasePrevious prev st).

(** ** Events

    The user's clicks and the settling of a [getUserMedia] promise. *)
Inductive Event :=
  | ClickStart
  | Settle (r : Acquisition)
  | ClickStop
  | ClickCapture (e : Shot)
  | ClickTile (key : string)
  | ClickDelete.

Definition handle (ev : Event) (st : Home) : Home :=
  match ev with
  | ClickStart => startCamera_begin st
  | Settle r => startCamera_settle r st
  | ClickStop => stopCamera st
  | ClickCapture e => captureImage e st
  | ClickTile key => toggleImageSelection key st
  | ClickDelete => deleteSelectedImages st
  end.

(** An event is handled, then React re-renders. *)
Definition dispatch (ev : Event) (st : Home) : Home :=
  commit (stream st) (handle ev st).

(** [capturedImages.some((img) => img.selected)] inside the
    [capturedImages.length > 0 && ...] block, lines 146-157. *)
Definition deleteButtonShown (st : Home) : bool :=
  bool_decide (0 < length (capturedImages st))%nat
  && existsb selected (capturedImages st).

(** Which events the rendered page offers: the start button when
    [!stream], the capture and stop buttons otherwise (lines 120-142), a
    tile per image (lines 160-163), the delete button as above; a promise
    can settle only if one is pending. *)
Definition offered (ev : Event) (st : Home) : bool :=
  match ev with
  | ClickStart => bool_decide (stream st = None)
  | Settle _ => bool_decide (0 < pending st)%nat
  | ClickStop | ClickCapture _ => bool_decide (stream st ≠ None)
  | ClickTile key => bool_decide (key ∈ id <$> capturedImages st)
  | ClickDelete => deleteButtonShown st
  end.


(** Running a trace of events; [None] when the page does not offer one. *)
Fixpoint run (ok : Event → Home → bool) (tr : list Event) (st : Home)
    : option Home :=
  match tr with
  | [] => Some st
  | ev :: tr => if ok ev st then run ok tr (dispatch ev st) else None
  end.

Definition reachable (st : Home) : Prop :=
  ∃ tr, run offered tr initial = Some st.


(** A sequence of [capture()] calls. *)
Definition captures (es : list Shot) (st : Home) : Home :=
  foldl (λ st e, dispatch (ClickCapture e) st) st es.

(** The preview shows a feed: a stream is set and the [<video>] is mounted. *)
Definition feedBound (st : Home) : Prop :=
  is_Some (stream st) ∧ is_Some (videoRef st).

(** [start()] as one uninterrupted user action: click, then the promise
    settles. *)
Definition start (r : Acquisition) (st : Home) : Home :=
  dispatch (Settle r) (dispatch ClickStart st).


(** ** Sample inputs *)

Definition shot_a : Shot :=
  mkShot true "data:image/jpeg;base64,AAAA"%string 1700000000000 1700000000000.

(** A different frame taken within the same millisecond as [shot_a]. *)
Definition shot_a' : Shot :=
  mkShot true "data:image/jpeg;base64,BBBB"%string 1700000000000 1700000000000.

Definition shot_b : Shot :=
  mkShot true "data:image/jpeg;base64,CCCC"%string 1700000000250 1700000000251.

Definition live : Home := start (Granted 1%nat) initial.

(** ** Sample states *)

(** The page with the camera on, showing stream [s], and the given
    gallery. *)
Definition cameraOn (s : MediaStream) (g : list CapturedImage) : Home :=
  mkHome (Some s) None g (Some (mkVideo (Some s))) ∅ 0%nat.

(** The state after a failed and then a successful start. *)
Definition retried : Home := start (Granted 2%nat) (start Rejected initial).


(** Two images taken, the first one selected. *)
Definition picked : Home :=
  cameraOn 1%nat [toggled (newImage shot_a); newImage shot_b].

(** ** Renders shared by several events

    React re-renders once per tick.  A click is flushed on its own, so it
    is a tick of one event, which is [dispatch].  Promises that settle
    within one tick share the render that follows: their handlers run one
    after the other on the state, and the render, with its effects, sees
    only what the last of them left. *)
Definition tick (evs : list Event) (st : Home) : Home :=
  commit (stream st) (foldl (λ st ev, handle ev st) st evs).

Definition is_settle (ev : Event) : bool :=
  match ev with
  | Settle _ => true
  | _ => false
  end.

(** A tick of one event the page offers, or of settlements of promises
    that are pending. *)
Definition tick_offered (evs : list Event) (st : Home) : bool :=
  match evs with
  | [ev] => offered ev st
  | _ => forallb is_settle evs && bool_decide (length evs ≤ pending st)%nat
  end.

Fixpoint runTicks (ok : list Event → Home → bool)
    (ticks : list (list Event)) (st : Home) : option Home :=
  match ticks with
  | [] => Some st
  | evs :: ticks => if ok evs st then runTicks ok ticks (tick evs st) else None
  end.

(** ** Leaving the page

    When the component unmounts, React runs the clean-up of lines 79-85
    for the stream of the last render and detaches the reference. *)
Definition unmount (st : Home) : Home :=
  setVideoRef None (releasePrevious (stream st) st).

(** ** The placeholder, lines 110-116

    The text shown where the video would be, [None] while the video is
    shown.  In [error || "カメラオフ"] an empty message counts as none. *)
Definition camera_off_label : string := "カメラオフ"%string.

Definition placeholder (st : Home) : option string :=
  match stream st with
  | Some _ => None
  | None =>
      Some match error st with
           | Some message =>
               if decide (message = ""%string) then camera_off_label
               else message
           | None => camera_off_label
           end
  end.

(** ** What a trace brought in *)

(** The streams [getUserMedia] has handed out. *)
Definition granted (tr : list Event) : list MediaStream :=
  omap (λ ev, match ev with Settle (Granted s) => Some s | _ => None end) tr.

(** The [Date.now()] readings that went into ids: those of the captures
    that had a 2D context. *)
Definition readings (tr : list Event) : list Z :=
  omap (λ ev, match ev with
              | ClickCapture e => if context e then Some (now_id e) else None
              | _ => None
              end) tr.

(** How many images are selected. *)
Definition selectedCount (g : list CapturedImage) : nat :=
  length (filter (λ img, selected img = true) g).

(** ** Sample runs *)

(** Two overlapping starts, both granted: the second stream replaces the
    first. *)
Definition two_grants : list Event :=
  [ClickStart; ClickStart; Settle (Granted 1%nat); Settle (Granted 2%nat)].

Definition replaced : Home :=
  mkHome (Some 2%nat) None [] (Some (mkVideo (Some 2%nat))) {[ 1%nat ]} 0%nat.

(** * Properties *)

(** ** What a re-render leaves alone *)

Section Frames.
Implicit Types (st : Home) (prev : option MediaStream).

Lemma commit_stream prev st : stream (commit prev st) = stream st.
Proof.
  unfold commit, bindPreview, releasePrevious, mountVideo.
  destruct st as [[s|] ? ? [v|] ? ?], prev; simpl;
    repeat case_decide; reflexivity.
Qed.

Lemma commit_error prev st : error (commit prev st) = error st.
Proof.
  unfold commit, bindPreview, releasePrevious, mountVideo.
  destruct st as [[s|] ? ? [v|] ? ?], prev; simpl;
    repeat case_decide; reflexivity.
Qed.

Lemma commit_capturedImages prev st :
  capturedImages (commit prev st) = capturedImages st.
Proof.
  unfold commit, bindPreview, releasePrevious, mountVideo.
  destruct st as [[s|] ? ? [v|] ? ?], prev; simpl;
    repeat case_decide; reflexivity.
Qed.

Lemma commit_pending prev st : pending (commit prev st) = pending st.
Proof.
  unfold commit, bindPreview, releasePrevious, mountVideo.
  destruct st as [[s|] ? ? [v|] ? ?], prev; simpl;
    repeat case_decide; reflexivity.
Qed.

(** After a re-render the reference is set exactly when the stream is. *)
Lemma commit_videoRef prev st :
  is_Some (videoRef (commit prev st)) ↔ is_Some (stream st).
Proof.
  unfold commit, bindPreview, releasePrevious, mountVideo.
  destruct st as [[s|] ? ? [v|] ? ?], prev; simpl;
    repeat case_decide; simpl; split; intros [? ?]; eauto; discriminate.
Qed.

(** With the stream unchanged and the video mounted as the stream asks,
    a re-render changes nothing. *)
Lemma commit_same st :
  (is_Some (videoRef st) ↔ is_Some (stream st)) →
  commit (stream st) st = st.
Proof.
  unfold commit, mountVideo.
  destruct st as [[s|] ? ? [v|] ? ?]; intros [H1 H2];
    cbn [stream videoRef setVideoRef default error capturedImages ended
         pending from_option] in *.
  - rewrite decide_True; reflexivity.
  - destruct H2 as [? ?]; eauto; discriminate.
  - destruct H1 as [? ?]; eauto; discriminate.
  - rewrite decide_True; reflexivity.
Qed.
End Frames.

(** ** The gallery updaters *)

Section Gallery.
Implicit Types (g : list CapturedImage) (img : CapturedImage) (key : string).

Lemma toggled_toggled img : toggled (toggled img) = img.
Proof. destruct img as [? ? [] ?]; reflexivity. Qed.

Lemma toggleIn_lookup key g (i : nat) :
  toggleIn key g !! i =
  (λ img, if decide (id img = key) then toggled img else img) <$> g !! i.
Proof. unfold toggleIn. apply list_lookup_fmap. Qed.

Lemma toggleIn_toggleIn key g : toggleIn key (toggleIn key g) = g.
Proof.
  unfold toggleIn. rewrite <- list_fmap_compose.
  rewrite <- (list_fmap_id g) at 2. apply list_fmap_ext.
  intros i img _. simpl. destruct (decide (id img = key)) as [E|E]; simpl.
  - rewrite decide_True by exact E. apply toggled_toggled.
  - rewrite decide_False by exact E. reflexivity.
Qed.

Lemma toggleIn_absent key g : key ∉ id <$> g → toggleIn key g = g.
Proof.
  intros Hk. unfold toggleIn.
  rewrite <- (list_fmap_id g) at 2. apply list_fmap_ext.
  intros i img Hi. simpl. rewrite decide_False; [reflexivity|].
  intros E. apply Hk. rewrite <- E.
  apply list_elem_of_fmap_2. eapply list_elem_of_lookup_2, Hi.
Qed.

Lemma keepUnselected_elem g img :
  img ∈ keepUnselected g ↔ img ∈ g ∧ selected img = false.
Proof.
  unfold keepUnselected. rewrite list_elem_of_filter.
  rewrite negb_true_iff. tauto.
Qed.

Lemma keepUnselected_all g :
  Forall (λ img, selected img = false) (keepUnselected g).
Proof.
  apply Forall_forall. intros img Hin.
  apply keepUnselected_elem in Hin. tauto.
Qed.

Lemma keepUnselected_id g :
  Forall (λ img, selected img = false) g → keepUnselected g = g.
Proof.
  unfold keepUnselected. induction 1 as [|img g Hs _ IH]; [reflexivity|].
  rewrite filter_cons_True by (rewrite Hs; reflexivity).
  f_equal. exact IH.
Qed.

Lemma keepUnselected_idem g :
  keepUnselected (keepUnselected g) = keepUnselected g.
Proof. apply keepUnselected_id, keepUnselected_all. Qed.

Lemma keepUnselected_split g :
  g ≡ₚ keepUnselected g ++ filter (λ img, selected img = true) g.
Proof.
  unfold keepUnselected. induction g as [|img g IH]; [reflexivity|].
  destruct (selected img) eqn:E.
  - rewrite filter_cons_False by (rewrite E; discriminate).
    rewrite filter_cons_True by exact E.
    rewrite <- Permutation_middle. constructor. exact IH.
  - rewrite filter_cons_True by (rewrite E; reflexivity).
    rewrite filter_cons_False by (rewrite E; discriminate).
    simpl. constructor. exact IH.
Qed.

Lemma existsb_selected_false g :
  Forall (λ img, selected img = false) g → existsb selected g = false.
Proof.
  induction 1 as [|img g Hs _ IH]; [reflexivity|].
  simpl. rewrite Hs, IH. reflexivity.
Qed.
End Gallery.

(** ** Selection and deletion *)

(** C2: [deleteSelectedImages] keeps exactly the entries that are not
    selected, each unchanged and in their old order; the entries it drops
    are exactly the selected ones; doing it twice is doing it once, and
    with nothing selected it changes nothing. *)
Theorem deleteSelectedImages_removes_selected (st : Home) :
  (∀ img, img ∈ capturedImages (deleteSelectedImages st)
          ↔ img ∈ capturedImages st ∧ selected img = false) ∧
  capturedImages (deleteSelectedImages st) `sublist_of` capturedImages st ∧
  capturedImages st ≡ₚ
    capturedImages (deleteSelectedImages st)
    ++ filter (λ img, selected img = true) (capturedImages st) ∧
  deleteSelectedImages (deleteSelectedImages st) = deleteSelectedImages st ∧
  (Forall (λ img, selected img = false) (capturedImages st) →
   deleteSelectedImages st = st).
Proof.
  destruct st as [s e g v en p]. unfold deleteSelectedImages, setCapturedImages.
  simpl. split; [|split; [|split; [|split]]].
  - intros img. apply keepUnselected_elem.
  - apply sublist_filter.
  - apply keepUnselected_split.
  - rewrite keepUnselected_idem. reflexivity.
  - intros H. rewrite keepUnselected_id by exact H. reflexivity.
Qed.

Lemma deleteSelectedImages_removes_selected_witness :
  Forall (λ img, selected img = false)
         (capturedImages (cameraOn 1%nat [newImage shot_b])) ∧
  deleteSelectedImages (cameraOn 1%nat [newImage shot_b])
  = cameraOn 1%nat [newImage shot_b] ∧
  capturedImages (deleteSelectedImages picked) `sublist_of` capturedImages picked.
Proof.
  assert (Hnone : Forall (λ img, selected img = false)
                         (capturedImages (cameraOn 1%nat [newImage shot_b])))
    by (repeat constructor).
  split; [exact Hnone|]. split.
  - destruct (deleteSelectedImages_removes_selected
                (cameraOn 1%nat [newImage shot_b])) as (_ & _ & _ & _ & Hnoop).
    exact (Hnoop Hnone).
  - destruct (deleteSelectedImages_removes_selected picked) as (_ & Hsub & _).
    exact Hsub.
Defined.

(** C3: toggling the same id twice gives back the gallery, so every entry
    has its old [selected] value again; one toggle leaves the [selected]
    value of every entry with another id as it was. *)
Theorem toggleImageSelection_involutive (key : string) (st : Home) :
  toggleImageSelection key (toggleImageSelection key st) = st ∧
  (∀ i : nat,
     selected <$> capturedImages
       (toggleImageSelection key (toggleImageSelection key st)) !! i
     = selected <$> capturedImages st !! i) ∧
  (∀ (i : nat) img,
     capturedImages st !! i = Some img → id img ≠ key →
     selected <$> capturedImages (toggleImageSelection key st) !! i
     = Some (selected img)).
Proof.
  destruct st as [s e g v en p]. unfold toggleImageSelection, setCapturedImages.
  simpl. split; [|split].
  - rewrite toggleIn_toggleIn. reflexivity.
  - intros i. rewrite toggleIn_toggleIn. reflexivity.
  - intros i img Hi Hne. rewrite toggleIn_lookup, Hi. simpl.
    rewrite decide_False by exact Hne. reflexivity.
Qed.

Lemma toggleImageSelection_involutive_witness :
  capturedImages picked !! 1%nat = Some (newImage shot_b) ∧
  id (newImage shot_b) ≠ id (newImage shot_a) ∧
  selected <$> capturedImages
    (toggleImageSelection (id (newImage shot_a)) picked) !! 1%nat
  = Some false.
Proof.
  assert (Hne : id (newImage shot_b) ≠ id (newImage shot_a)) by discriminate.
  split; [reflexivity|]. split; [exact Hne|].
  destruct (toggleImageSelection_involutive (id (newImage shot_a)) picked)
    as (_ & _ & Hother).
  exact (Hother 1%nat (newImage shot_b) eq_refl Hne).
Defined.

(** C4: [toggleImageSelection] keeps the length of the gallery; at an
    entry whose id matches, only [selected] changes, to its negation; every
    other entry stays the same value at the same place; nothing but the
    gallery changes; and when no entry has the id, the state is unchanged. *)
Theorem toggleImageSelection_frame (key : string) (st : Home) :
  length (capturedImages (toggleImageSelection key st))
  = length (capturedImages st) ∧
  (∀ (i : nat) img,
     capturedImages st !! i = Some img → id img = key →
     ∃ img', capturedImages (toggleImageSelection key st) !! i = Some img' ∧
             selected img' = negb (selected img) ∧ id img' = id img ∧
             dataUrl img' = dataUrl img ∧ timestamp img' = timestamp img) ∧
  (∀ (i : nat) img,
     capturedImages st !! i = Some img → id img ≠ key →
     capturedImages (toggleImageSelection key st) !! i = Some img) ∧
  (stream (toggleImageSelection key st) = stream st ∧
   error (toggleImageSelection key st) = error st) ∧
  (key ∉ id <$> capturedImages st → toggleImageSelection key st = st).
Proof.
  destruct st as [s e g v en p]. unfold toggleImageSelection, setCapturedImages.
  simpl. split; [|split; [|split; [|split]]].
  - unfold toggleIn. apply length_fmap.
  - intros i img Hi Heq. exists (toggled img).
    rewrite toggleIn_lookup, Hi. simpl.
    rewrite decide_True by exact Heq. repeat split.
  - intros i img Hi Hne. rewrite toggleIn_lookup, Hi. simpl.
    rewrite decide_False by exact Hne. reflexivity.
  - split; reflexivity.
  - intros H. rewrite toggleIn_absent by exact H. reflexivity.
Qed.

Lemma toggleImageSelection_frame_witness :
  ("img-0"%string ∉ id <$> capturedImages picked) ∧
  toggleImageSelection "img-0"%string picked = picked ∧
  capturedImages (toggleImageSelection (id (newImage shot_a)) picked) !! 1%nat
  = Some (newImage shot_b).
Proof.
  assert (Habs : "img-0"%string ∉ id <$> capturedImages picked).
  { intros H. apply elem_of_cons in H as [H|H]; [discriminate|].
    apply elem_of_cons in H as [H|H]; [discriminate|]. inversion H. }
  split; [exact Habs|]. split.
  - destruct (toggleImageSelection_frame "img-0"%string picked)
      as (_ & _ & _ & _ & Hnoop).
    exact (Hnoop Habs).
  - destruct (toggleImageSelection_frame (id (newImage shot_a)) picked)
      as (_ & _ & Hother & _).
    apply (Hother 1%nat (newImage shot_b) eq_refl). discriminate.
Defined.

(** C9: after [deleteSelectedImages] no remaining entry is selected, so
    the delete button is not rendered, before and after the re-render, and
    a second deletion changes nothing. *)
Theorem deleteSelectedImages_leaves_none_selected (st : Home) :
  Forall (λ img, selected img = false)
         (capturedImages (deleteSelectedImages st)) ∧
  deleteButtonShown (deleteSelectedImages st) = false ∧
  deleteButtonShown (dispatch ClickDelete st) = false ∧
  offered ClickDelete (dispatch ClickDelete st) = false ∧
  deleteSelectedImages (deleteSelectedImages st) = deleteSelectedImages st.
Proof.
  assert (Hnone : Forall (λ img, selected img = false)
                         (capturedImages (deleteSelectedImages st)))
    by apply keepUnselected_all.
  assert (Hbtn : ∀ st', capturedImages st' = capturedImages (deleteSelectedImages st)
                        → deleteButtonShown st' = false).
  { intros st' E. unfold deleteButtonShown. rewrite E.
    rewrite (existsb_selected_false _ Hnone). apply andb_false_r. }
  repeat split.
  - exact Hnone.
  - apply Hbtn. reflexivity.
  - apply Hbtn. unfold dispatch. apply commit_capturedImages.
  - simpl. apply Hbtn. unfold dispatch. apply commit_capturedImages.
  - destruct st as [s e g v en p].
    unfold deleteSelectedImages, setCapturedImages. simpl.
    rewrite keepUnselected_idem. reflexivity.
Qed.

(** ** The device session *)

Section Session.
Implicit Types (st : Home) (e : Shot) (s : MediaStream).

Lemma stopCamera_stream st : stream (stopCamera st) = None.
Proof. unfold stopCamera. destruct (stream st) eqn:E; [reflexivity|exact E]. Qed.

Lemma stopCamera_capturedImages st :
  capturedImages (stopCamera st) = capturedImages st.
Proof. unfold stopCamera. destruct (stream st); reflexivity. Qed.

Lemma stopCamera_error st : error (stopCamera st) = error st.
Proof. unfold stopCamera. destruct (stream st); reflexivity. Qed.

(** After the stop button's click and the re-render, there is neither a
    stream nor a mounted [<video>]. *)
Lemma dispatch_stop_off st :
  stream (dispatch ClickStop st) = None ∧
  videoRef (dispatch ClickStop st) = None.
Proof.
  unfold dispatch. rewrite commit_stream. simpl handle.
  split; [apply stopCamera_stream|].
  pose proof (commit_videoRef (stream st) (stopCamera st)) as [H _].
  rewrite stopCamera_stream in H.
  destruct (videoRef _); [|reflexivity].
  destruct H as [? ?]; eauto; discriminate.
Qed.

(** With the camera off a click is followed by a re-render that finds
    nothing to do. *)
Lemma dispatch_off_fixed ev st :
  stream st = None → videoRef st = None → handle ev st = st →
  dispatch ev st = st.
Proof.
  intros Hs Hv Hh. unfold dispatch. rewrite Hh.
  apply commit_same. rewrite Hs, Hv. split; intros [? ?]; discriminate.
Qed.

Lemma captureImage_unmounted e st : videoRef st = None → captureImage e st = st.
Proof. intros H. unfold captureImage. rewrite H. reflexivity. Qed.

Lemma stopCamera_off st : stream st = None → stopCamera st = st.
Proof. intros H. unfold stopCamera. rewrite H. reflexivity. Qed.

End Session.

(** C10: [stopCamera] leaves the gallery and the error message as they
    were, also once the page has re-rendered; it only clears the stream. *)
Theorem stopCamera_only_clears_stream (st : Home) :
  capturedImages (stopCamera st) = capturedImages st ∧
  error (stopCamera st) = error st ∧
  stream (stopCamera st) = None ∧
  capturedImages (dispatch ClickStop st) = capturedImages st ∧
  error (dispatch ClickStop st) = error st.
Proof.
  unfold dispatch. rewrite commit_capturedImages, commit_error. simpl handle.
  auto using stopCamera_capturedImages, stopCamera_error, stopCamera_stream.
Qed.

(** C7 as stated does not hold of the code: [captureImage] looks at
    [videoRef.current], which [stopCamera] does not clear, so a capture
    called right after the stop, before the page has re-rendered, still
    finds the video and appends. *)
Lemma capture_before_rerender_after_stop_appends :
  stream (stopCamera live) = None ∧
  capturedImages (stopCamera live) = [] ∧
  capturedImages (captureImage shot_a (stopCamera live)) = [newImage shot_a] ∧
  capturedImages (captureImage shot_a (stopCamera live))
  ≠ capturedImages (stopCamera live).
Proof.
  split; [reflexivity|]. split; [reflexivity|]. split; [reflexivity|].
  discriminate.
Qed.

(** C7, amended: a second [stopCamera] changes nothing, as a bare call and
    as a click followed by a re-render, and without a stream [stopCamera]
    is the identity.  Once the page has re-rendered after the stop, the
    capture button is gone and a capture, as a click or as a bare call,
    leaves the whole state, so also the gallery, as the stop left it; the
    same holds for a bare call whenever no video is mounted.  Before that
    re-render the stop makes no difference to what a capture does to the
    gallery. *)
Theorem stopCamera_idempotent (st : Home) (e : Shot) :
  stopCamera (stopCamera st) = stopCamera st ∧
  dispatch ClickStop (dispatch ClickStop st) = dispatch ClickStop st ∧
  (stream st = None → stopCamera st = st) ∧
  dispatch (ClickCapture e) (dispatch ClickStop st) = dispatch ClickStop st ∧
  capturedImages (dispatch (ClickCapture e) (dispatch ClickStop st))
  = capturedImages st ∧
  offered (ClickCapture e) (dispatch ClickStop st) = false ∧
  captureImage e (dispatch ClickStop st) = dispatch ClickStop st ∧
  (videoRef st = None → captureImage e (stopCamera st) = stopCamera st) ∧
  capturedImages (captureImage e (stopCamera st))
  = capturedImages (captureImage e st).
Proof.
  destruct (dispatch_stop_off st) as [Hs Hv].
  assert (Hcap : dispatch (ClickCapture e) (dispatch ClickStop st)
                 = dispatch ClickStop st).
  { apply dispatch_off_fixed; [exact Hs|exact Hv|].
    apply captureImage_unmounted, Hv. }
  split; [|split; [|split; [|split; [|split; [|split; [|split; [|split]]]]]]].
  - apply stopCamera_off, stopCamera_stream.
  - apply dispatch_off_fixed; [exact Hs|exact Hv|].
    apply stopCamera_off, Hs.
  - apply stopCamera_off.
  - exact Hcap.
  - rewrite Hcap. unfold dispatch. rewrite commit_capturedImages.
    apply stopCamera_capturedImages.
  - simpl. rewrite Hs. reflexivity.
  - apply captureImage_unmounted, Hv.
  - intros Hno. apply captureImage_unmounted.
    unfold stopCamera. destruct (stream st); exact Hno.
  - destruct st as [s er g v en p]. unfold stopCamera, captureImage. simpl.
    destruct s, v; try reflexivity; simpl; destruct (context e); reflexivity.
Qed.

Lemma stopCamera_idempotent_witness :
  stream retried = Some 2%nat ∧
  stream (dispatch ClickStop retried) = None ∧
  stopCamera (dispatch ClickStop retried) = dispatch ClickStop retried ∧
  capturedImages (dispatch (ClickCapture shot_a) (dispatch ClickStop retried))
  = [] ∧
  videoRef initial = None ∧
  captureImage shot_a (stopCamera initial) = stopCamera initial.
Proof.
  assert (Hoff : stream (dispatch ClickStop retried) = None) by reflexivity.
  split; [reflexivity|]. split; [exact Hoff|]. split; [|split; [|split]].
  - destruct (stopCamera_idempotent (dispatch ClickStop retried) shot_a)
      as (_ & _ & Hnoop & _).
    exact (Hnoop Hoff).
  - destruct (stopCamera_idempotent retried shot_a) as (_ & _ & _ & _ & Hcap & _).
    exact Hcap.
  - reflexivity.
  - destruct (stopCamera_idempotent initial shot_a)
      as (_ & _ & _ & _ & _ & _ & _ & Hbare & _).
    exact (Hbare eq_refl).
Defined.

(** C6: with no session, a start that fails leaves the fixed message in
    [error] and [stream] unset; the next start, when it succeeds, clears
    [error] and stores the stream.  The same holds for the bare handler. *)
Theorem start_failure_then_success (st : Home) (s : MediaStream) :
  stream st = None →
  (error (start Rejected st) = Some camera_error_message ∧
   stream (start Rejected st) = None) ∧
  (error (start (Granted s) (start Rejected st)) = None ∧
   stream (start (Granted s) (start Rejected st)) = Some s) ∧
  (error (startCamera Rejected st) = Some camera_error_message ∧
   stream (startCamera Rejected st) = None) ∧
  (error (startCamera (Granted s) (startCamera Rejected st)) = None ∧
   stream (startCamera (Granted s) (startCamera Rejected st)) = Some s).
Proof.
  intros Hs. unfold start, dispatch.
  rewrite !commit_error, !commit_stream. simpl handle.
  rewrite !commit_error, !commit_stream.
  destruct st as [s0 e g v en p]. simpl in Hs. subst s0.
  repeat split.
Qed.

Lemma start_failure_then_success_witness :
  stream initial = None ∧
  error (start Rejected initial) = Some camera_error_message ∧
  stream (start (Granted 1%nat) (start Rejected initial)) = Some 1%nat.
Proof.
  pose proof (start_failure_then_success initial 1%nat eq_refl) as H.
  split; [reflexivity|]. split; [apply H|apply H].
Defined.

(** ** Session and error over whole runs *)

Section Runs.
Implicit Types (st : Home) (ev : Event) (tr : list Event).

Lemma run_invariant (ok : Event → Home → bool) (Inv : Home → Prop) :
  (∀ ev st, Inv st → ok ev st = true → Inv (dispatch ev st)) →
  ∀ tr st st', Inv st → run ok tr st = Some st' → Inv st'.
Proof.
  intros Hstep tr. induction tr as [|ev tr IH]; intros st st' Hinv Hrun.
  - simpl in Hrun. congruence.
  - simpl in Hrun. destruct (ok ev st) eqn:Hok; [|discriminate].
    eapply IH; [|exact Hrun]. apply Hstep; assumption.
Qed.

(** Every state the page reaches has the [<video>] mounted exactly when
    a stream is set. *)
Lemma run_rendered ok tr st st' :
  (is_Some (videoRef st) ↔ is_Some (stream st)) →
  run ok tr st = Some st' →
  is_Some (videoRef st') ↔ is_Some (stream st').
Proof.
  apply (run_invariant ok (λ st, is_Some (videoRef st) ↔ is_Some (stream st))).
  intros ev st0 _ _. unfold dispatch.
  rewrite commit_stream. apply commit_videoRef.
Qed.

Lemma reachable_rendered st :
  reachable st → is_Some (videoRef st) ↔ is_Some (stream st).
Proof.
  intros [tr Hrun]. apply (run_rendered offered tr initial st); [|exact Hrun].
  split; intros [? ?]; discriminate.
Qed.

(** On the page as it runs, a feed is bound exactly when a stream is set. *)
Lemma reachable_feedBound st :
  reachable st → feedBound st ↔ is_Some (stream st).
Proof.
  intros Hr. apply reachable_rendered in Hr. unfold feedBound. tauto.
Qed.




End Runs.





(** ** Capturing *)

Section Capturing.
Implicit Types (st : Home) (e : Shot) (es : list Shot).

#[global] Instance image_id_inj : Inj (=) (=) image_id.
Proof.
  intros a b H. unfold image_id in H. simpl in H.
  injection H as H. exact (pretty_Z_inj a b H).
Qed.

(** A click that leaves the stream and the reference alone needs no work
    from the re-render. *)
Lemma dispatch_handle ev st :
  (is_Some (videoRef st) ↔ is_Some (stream st)) →
  stream (handle ev st) = stream st →
  videoRef (handle ev st) = videoRef st →
  dispatch ev st = handle ev st.
Proof.
  intros Hr Hs Hv. unfold dispatch. rewrite <- Hs.
  apply commit_same. rewrite Hs, Hv. exact Hr.
Qed.

Lemma feedBound_rendered st :
  feedBound st → is_Some (videoRef st) ↔ is_Some (stream st).
Proof. intros [Hs Hv]. split; intros _; assumption. Qed.

Lemma captureImage_bound e st :
  feedBound st → context e = true →
  captureImage e st = setCapturedImages (λ prev, prev ++ [newImage e]) st.
Proof.
  intros [_ [v Hv]] Hc. unfold captureImage. rewrite Hv, Hc. reflexivity.
Qed.

Lemma dispatch_capture e st :
  feedBound st → context e = true →
  dispatch (ClickCapture e) st
  = setCapturedImages (λ prev, prev ++ [newImage e]) st.
Proof.
  intros Hb Hc. rewrite <- (captureImage_bound e st Hb Hc).
  apply dispatch_handle.
  - apply feedBound_rendered, Hb.
  - simpl. rewrite captureImage_bound by assumption. reflexivity.
  - simpl. rewrite captureImage_bound by assumption. reflexivity.
Qed.

Lemma captures_bound es st :
  feedBound st → Forall (λ e, context e = true) es →
  captures es st = setCapturedImages (λ prev, prev ++ (newImage <$> es)) st.
Proof.
  intros Hb Hc. revert st Hb.
  induction Hc as [|e es He _ IH]; intros st Hb.
  - destruct st. unfold setCapturedImages. simpl. rewrite app_nil_r.
    reflexivity.
  - unfold captures. simpl. fold (captures es (dispatch (ClickCapture e) st)).
    rewrite dispatch_capture by assumption.
    rewrite IH by exact Hb.
    unfold setCapturedImages. simpl. rewrite <- app_assoc. reflexivity.
Qed.

End Capturing.

(** C1 as stated does not hold of the code, for two reasons.  Two captures whose
    [Date.now()] readings agree get the same id; and a capture that gets no
    2D context adds nothing although the feed is bound. *)
Lemma captures_same_millisecond_share_id :
  feedBound live ∧
  id <$> capturedImages (captures [shot_a; shot_a'] live)
  = ["img-1700000000000"; "img-1700000000000"]%string ∧
  ¬ NoDup (id <$> capturedImages (captures [shot_a; shot_a'] live)) ∧
  length (capturedImages
            (dispatch (ClickCapture (mkShot false ""%string 5 5)) live))
  = length (capturedImages live).
Proof.
  split; [split; eexists; reflexivity|].
  split; [reflexivity|]. split; [|reflexivity].
  change (id <$> capturedImages (captures [shot_a; shot_a'] live))
    with ["img-1700000000000"; "img-1700000000000"]%string.
  intros H. apply NoDup_cons in H as [H _]. apply H. left.
Qed.

(** C1, amended: in a sequence of captures made while a feed is bound,
    each getting its 2D context, every call puts exactly one new record at
    the end of the gallery and leaves the earlier entries as they were, so
    the length grows by one per call, and the feed stays bound.  The ids
    in the gallery are pairwise distinct when they were before, the
    [Date.now()] readings taken for the ids are pairwise distinct, and
    none of the new ids was in the gallery already. *)
Theorem captures_append (es : list Shot) (st : Home) :
  feedBound st →
  Forall (λ e, context e = true) es →
  capturedImages (captures es st) = capturedImages st ++ (newImage <$> es) ∧
  length (capturedImages (captures es st))
  = (length (capturedImages st) + length es)%nat ∧
  (∀ e, e ∈ es →
     capturedImages (dispatch (ClickCapture e) st)
     = capturedImages st ++ [newImage e]) ∧
  feedBound (captures es st) ∧
  (NoDup (id <$> capturedImages st) →
   NoDup (now_id <$> es) →
   (∀ e, e ∈ es → image_id (now_id e) ∉ id <$> capturedImages st) →
   NoDup (id <$> capturedImages (captures es st))).
Proof.
  intros Hb Hc. rewrite (captures_bound es st Hb Hc).
  destruct st as [s er g v en p]. unfold setCapturedImages. simpl.
  split; [reflexivity|]. split; [|split; [|split]].
  - rewrite length_app, length_fmap. reflexivity.
  - intros e He. rewrite dispatch_capture; [reflexivity|exact Hb|].
    rewrite Forall_forall in Hc. apply Hc, He.
  - exact Hb.
  - intros Hg Hn Hfresh. rewrite fmap_app. apply NoDup_app.
    split; [exact Hg|]. rewrite <- list_fmap_compose. split.
    + intros x Hx Hx'. apply list_elem_of_fmap in Hx' as (e & -> & He).
      exact (Hfresh e He Hx).
    + change (id ∘ newImage) with (image_id ∘ now_id).
      rewrite list_fmap_compose.
      apply (NoDup_fmap_2 image_id). exact Hn.
Qed.

Lemma captures_append_witness :
  feedBound live ∧
  capturedImages (captures [shot_a; shot_b] live)
  = [newImage shot_a; newImage shot_b] ∧
  NoDup (id <$> capturedImages (captures [shot_a; shot_b] live)).
Proof.
  assert (Hb : feedBound live) by (split; eexists; reflexivity).
  assert (Hc : Forall (λ e, context e = true) [shot_a; shot_b])
    by (repeat constructor).
  destruct (captures_append [shot_a; shot_b] live Hb Hc)
    as (Happ & _ & _ & _ & Hdup).
  split; [exact Hb|]. split; [exact Happ|].
  apply Hdup.
  - constructor.
  - apply NoDup_cons. split; [|apply NoDup_singleton].
    intros H. apply list_elem_of_singleton in H. discriminate.
  - intros e _ H. inversion H.
Defined.

(** ** The capture, select, delete scenario *)

Section Scenario.
Variables (s : MediaStream) (a b : Shot).

Lemma cameraOn_rendered g :
  is_Some (videoRef (cameraOn s g)) ↔ is_Some (stream (cameraOn s g)).
Proof. split; intros _; eexists; reflexivity. Qed.

Lemma cameraOn_feedBound g : feedBound (cameraOn s g).
Proof. split; eexists; reflexivity. Qed.

Lemma start_granted_initial : start (Granted s) initial = cameraOn s [].
Proof. reflexivity. Qed.

Lemma cameraOn_capture e g :
  context e = true →
  dispatch (ClickCapture e) (cameraOn s g) = cameraOn s (g ++ [newImage e]).
Proof.
  intros Hc. rewrite dispatch_capture; [reflexivity| |exact Hc].
  apply cameraOn_feedBound.
Qed.

Lemma cameraOn_toggle key g :
  dispatch (ClickTile key) (cameraOn s g) = cameraOn s (toggleIn key g).
Proof.
  rewrite dispatch_handle; [reflexivity| |reflexivity|reflexivity].
  apply cameraOn_rendered.
Qed.

Lemma cameraOn_delete g :
  dispatch ClickDelete (cameraOn s g) = cameraOn s (keepUnselected g).
Proof.
  rewrite dispatch_handle; [reflexivity| |reflexivity|reflexivity].
  apply cameraOn_rendered.
Qed.

Lemma toggleIn_first_of_two :
  now_id a ≠ now_id b →
  toggleIn (image_id (now_id a)) [newImage a; newImage b]
  = [toggled (newImage a); newImage b].
Proof.
  intros Hne. unfold toggleIn. simpl fmap.
  change (id (newImage a)) with (image_id (now_id a)).
  change (id (newImage b)) with (image_id (now_id b)).
  rewrite decide_True by reflexivity.
  rewrite decide_False; [reflexivity|].
  intros E. apply Hne. symmetry. exact (image_id_inj _ _ E).
Qed.

End Scenario.

(** C8 as stated does not hold of the code: when the two captures read the same
    millisecond, the first image's id is also the second's, the click
    selects both and the deletion empties the gallery. *)
Lemma scenario_same_millisecond_deletes_both :
  run offered
      [ClickStart; Settle (Granted 1%nat); ClickCapture shot_a;
       ClickCapture shot_a'; ClickTile (id (newImage shot_a)); ClickDelete]
      initial
  = Some (cameraOn 1%nat []) ∧
  capturedImages (cameraOn 1%nat []) ≠ [newImage shot_a'].
Proof. split; [reflexivity|discriminate]. Qed.

(** C8, amended: start succeeds, two captures follow, each with its 2D
    context and with different [Date.now()] readings for their ids, the
    first image's tile is clicked and the selection deleted.  Each step is
    one the page offers, and the gallery then holds the second image alone,
    not selected. *)
Theorem scenario_keeps_second_capture (s : MediaStream) (a b : Shot) :
  context a = true → context b = true → now_id a ≠ now_id b →
  run offered
      [ClickStart; Settle (Granted s); ClickCapture a; ClickCapture b;
       ClickTile (id (newImage a)); ClickDelete]
      initial
  = Some (cameraOn s [newImage b]) ∧
  capturedImages (cameraOn s [newImage b]) = [newImage b] ∧
  selected (newImage b) = false.
Proof.
  intros Ha Hb Hne. split; [|split; reflexivity].
  change (run offered
            [ClickCapture a; ClickCapture b; ClickTile (id (newImage a));
             ClickDelete] (start (Granted s) initial)
          = Some (cameraOn s [newImage b])).
  rewrite start_granted_initial.
  cbn [run]. change (offered (ClickCapture a) (cameraOn s [])) with true.
  cbv iota. rewrite (cameraOn_capture s a [] Ha).
  change (offered (ClickCapture b) (cameraOn s ([] ++ [newImage a]))) with true.
  cbv iota. rewrite (cameraOn_capture s b _ Hb).
  change (([] ++ [newImage a]) ++ [newImage b]) with [newImage a; newImage b].
  assert (Htile : offered (ClickTile (id (newImage a)))
                          (cameraOn s [newImage a; newImage b]) = true).
  { apply bool_decide_eq_true_2. left. }
  rewrite Htile, cameraOn_toggle.
  change (id (newImage a)) with (image_id (now_id a)).
  rewrite (toggleIn_first_of_two a b Hne).
  change (offered ClickDelete
            (cameraOn s [toggled (newImage a); newImage b])) with true.
  cbv iota. rewrite cameraOn_delete. reflexivity.
Qed.

Lemma scenario_keeps_second_capture_witness :
  now_id shot_a ≠ now_id shot_b ∧
  run offered
      [ClickStart; Settle (Granted 1%nat); ClickCapture shot_a;
       ClickCapture shot_b; ClickTile (id (newImage shot_a)); ClickDelete]
      initial
  = Some (cameraOn 1%nat [newImage shot_b]).
Proof.
  assert (Hne : now_id shot_a ≠ now_id shot_b) by discriminate.
  split; [exact Hne|].
  apply (scenario_keeps_second_capture 1%nat shot_a shot_b eq_refl eq_refl Hne).
Defined.

(** * Further properties of the page *)

(** ** What an event changes *)

Section Dispatch.
Implicit Types (st : Home) (ev : Event) (prev : option MediaStream).

Lemma handle_videoRef ev st : videoRef (handle ev st) = videoRef st.
Proof.
  destruct st as [s er g v en p].
  destruct ev as [|[]| |e| |]; simpl; try reflexivity.
  - unfold stopCamera. simpl. destruct s; reflexivity.
  - unfold captureImage. simpl. destruct v; [|reflexivity].
    destruct (context e); reflexivity.
Qed.

Lemma commit_ended prev st :
  ended (commit prev st)
  = if decide (prev = stream st) then ended st
    else ended (releasePrevious prev st).
Proof.
  unfold commit, bindPreview, releasePrevious, mountVideo.
  destruct st as [[s|] ? ? [v|] ? ?], prev; simpl;
    repeat case_decide; try congruence; reflexivity.
Qed.

(** The re-render puts the current stream into a mounted [<video>],
    provided the one of the previous render was in it. *)
Lemma commit_preview prev st :
  videoRef st = (λ s, mkVideo (Some s)) <$> prev →
  videoRef (commit prev st) = (λ s, mkVideo (Some s)) <$> stream st.
Proof.
  unfold commit, bindPreview, releasePrevious, mountVideo.
  destruct st as [[s|] ? ? [v|] ? ?], prev; simpl; intros H;
    repeat case_decide; simplify_eq; simpl; try reflexivity.
Qed.

End Dispatch.

(** X1: on the running page the video element is mounted exactly when a
    stream is set, and its [srcObject] is then that stream. *)
Theorem preview_shows_current_stream (st : Home) :
  reachable st →
  videoRef st = (λ s, mkVideo (Some s)) <$> stream st.
Proof.
  intros [tr Hrun].
  apply (run_invariant offered
           (λ st, videoRef st = (λ s, mkVideo (Some s)) <$> stream st))
    with (tr := tr) (st := initial); [|reflexivity|exact Hrun].
  intros ev st0 Hinv _. unfold dispatch.
  rewrite commit_stream. apply commit_preview.
  rewrite handle_videoRef. exact Hinv.
Qed.

Lemma preview_shows_current_stream_witness :
  reachable retried ∧ videoRef retried = Some (mkVideo (Some 2%nat)).
Proof.
  assert (Hr : reachable retried).
  { exists [ClickStart; Settle Rejected; ClickStart; Settle (Granted 2%nat)].
    reflexivity. }
  split; [exact Hr|]. exact (preview_shows_current_stream retried Hr).
Defined.

(** X2: the camera events (start, settling, stop) never change the gallery,
    and the gallery events (capture, tile click, delete) never change the
    stream, the error, the ended streams or the pending count. *)
Theorem camera_and_gallery_events_independent (ev : Event) (st : Home) :
  match ev with
  | ClickStart | Settle _ | ClickStop =>
      capturedImages (dispatch ev st) = capturedImages st
  | ClickCapture _ | ClickTile _ | ClickDelete =>
      stream (dispatch ev st) = stream st ∧
      error (dispatch ev st) = error st ∧
      ended (dispatch ev st) = ended st ∧
      pending (dispatch ev st) = pending st
  end.
Proof.
  unfold dispatch.
  rewrite ?commit_capturedImages, ?commit_stream, ?commit_error,
          ?commit_pending, ?commit_ended.
  destruct st as [s er g v en p].
  destruct ev as [|[]| |e| |]; try reflexivity.
  - apply stopCamera_capturedImages.
  - unfold handle, captureImage.
    cbn [videoRef stream error ended pending capturedImages].
    destruct v; [destruct (context e)|]; simpl;
      rewrite decide_True by reflexivity; auto.
  - simpl. rewrite decide_True by reflexivity. auto.
  - simpl. rewrite decide_True by reflexivity. auto.
Qed.

(** ** Streams handed out, in use and stopped *)

Section Streams.
Implicit Types (st : Home) (ev : Event) (tr : list Event) (s : MediaStream).

Lemma run_snoc ok tr ev st :
  run ok (tr ++ [ev]) st
  = run ok tr st ≫= λ st', if ok ev st' then Some (dispatch ev st') else None.
Proof.
  revert st. induction tr as [|ev' tr IH]; intros st; simpl.
  - destruct (ok ev st); reflexivity.
  - destruct (ok ev' st); [apply IH|reflexivity].
Qed.

(** Induction along a run, with the trace so far at hand. *)
Lemma run_trace_invariant ok (Inv : list Event → Home → Prop) st0 :
  Inv [] st0 →
  (∀ tr st ev, Inv tr st → ok ev st = true →
               Inv (tr ++ [ev]) (dispatch ev st)) →
  ∀ tr st, run ok tr st0 = Some st → Inv tr st.
Proof.
  intros H0 Hstep tr. induction tr as [|ev tr IH] using rev_ind; intros st Hrun.
  - simpl in Hrun. congruence.
  - rewrite run_snoc in Hrun.
    destruct (run ok tr st0) as [st1|] eqn:E; [|discriminate].
    simpl in Hrun. destruct (ok ev st1) eqn:Hok; [|discriminate].
    injection Hrun as <-. apply Hstep; [apply IH; reflexivity|exact Hok].
Qed.

(** The stream and the ended streams after an event. *)
Lemma dispatch_stream_ended ev st :
  stream (dispatch ev st)
  = match ev with
    | Settle (Granted s) => Some s
    | ClickStop => None
    | _ => stream st
    end ∧
  ended (dispatch ev st)
  = match ev with
    | Settle (Granted s) =>
        if decide (stream st = Some s) then ended st
        else ended (releasePrevious (stream st) st)
    | ClickStop => ended (releasePrevious (stream st) st)
    | _ => ended st
    end.
Proof.
  unfold dispatch. rewrite commit_stream, commit_ended.
  destruct st as [s0 er g v en p].
  destruct ev as [|[s|]| |e| |];
    cbn [handle stream ended startCamera_begin startCamera_settle setError
         setStream toggleImageSelection deleteSelectedImages
         setCapturedImages error capturedImages videoRef pending].
  - rewrite decide_True by reflexivity. split; reflexivity.
  - split; [reflexivity|]. destruct s0; reflexivity.
  - rewrite decide_True by reflexivity. split; reflexivity.
  - unfold stopCamera. destruct s0 as [s0|]; simpl.
    + split; [reflexivity|].
      rewrite (assoc_L (∪)), (idemp_L (∪)). reflexivity.
    + split; reflexivity.
  - unfold captureImage. simpl.
    destruct v; [destruct (context e)|]; simpl;
      rewrite decide_True by reflexivity; split; reflexivity.
  - rewrite decide_True by reflexivity. split; reflexivity.
  - rewrite decide_True by reflexivity. split; reflexivity.
Qed.

Lemma granted_snoc tr ev :
  granted (tr ++ [ev])
  = granted tr ++ match ev with Settle (Granted s) => [s] | _ => [] end.
Proof.
  unfold granted. rewrite omap_app. f_equal.
  destruct ev as [|[]| | | |]; reflexivity.
Qed.

(** Along a run in which every event has its own render: a stream handed
    out is in use or stopped, only streams handed out are stopped or in
    use, and, when no stream is handed out twice, the one in use has not
    been stopped. *)
Lemma run_accounted ok tr st :
  run ok tr initial = Some st →
  (∀ s, s ∈ granted tr → stream st = Some s ∨ s ∈ ended st) ∧
  (∀ s, s ∈ ended st → s ∈ granted tr) ∧
  (∀ s, stream st = Some s → s ∈ granted tr) ∧
  (NoDup (granted tr) → ∀ s, stream st = Some s → s ∉ ended st).
Proof.
  revert tr st. apply run_trace_invariant.
  - split; [|split; [|split]].
    + intros s Hs. inversion Hs.
    + intros s Hs. apply elem_of_empty in Hs. destruct Hs.
    + intros s Hs. discriminate.
    + intros _ s Hs. discriminate.
  - intros tr st ev (Hcov & Hend & Hcur & Hlive) _.
    destruct (dispatch_stream_ended ev st) as [-> ->].
    rewrite granted_snoc.
    destruct ev as [|[s1|]| |e| |]; rewrite ?app_nil_r;
      try (split; [exact Hcov|split; [exact Hend|split; [exact Hcur|exact Hlive]]]).
    + (* a stream is granted *)
      destruct st as [[s0|] er g v en p]; simpl in *.
      * destruct (decide (Some s0 = Some s1)) as [E|E]; simpl.
        -- injection E as ->. repeat split.
           ++ intros s Hs. apply elem_of_app in Hs as [Hs|Hs]; [auto|].
              apply list_elem_of_singleton in Hs as ->. auto.
           ++ intros s Hs. apply elem_of_app. auto.
           ++ intros s Hs. apply elem_of_app. right. injection Hs as ->. left.
           ++ intros Hnd s Hs. injection Hs as <-.
              apply NoDup_app in Hnd as (_ & Hfresh & _).
              exfalso. apply (Hfresh s1); [apply Hcur; reflexivity|left].
        -- repeat split.
           ++ intros s Hs. apply elem_of_app in Hs as [Hs|Hs].
              ** destruct (Hcov s Hs) as [Hc|Hc]; [|set_solver].
                 injection Hc as ->. set_solver.
              ** apply list_elem_of_singleton in Hs as ->. auto.
           ++ intros s Hs. apply elem_of_app. left.
              apply elem_of_union in Hs as [Hs|Hs]; [|auto].
              apply elem_of_singleton in Hs as ->. apply Hcur. reflexivity.
           ++ intros s Hs. apply elem_of_app. right. injection Hs as ->. left.
           ++ intros Hnd s Hs. injection Hs as <-.
              apply NoDup_app in Hnd as (_ & Hfresh & _).
              intros Hin. apply (Hfresh s1); [|left].
              apply elem_of_union in Hin as [Hin|Hin]; [|auto].
              apply elem_of_singleton in Hin as ->. apply Hcur. reflexivity.
      * repeat split.
        -- intros s Hs. apply elem_of_app in Hs as [Hs|Hs].
           ++ destruct (Hcov s Hs) as [Hc|Hc]; [discriminate|auto].
           ++ apply list_elem_of_singleton in Hs as ->. auto.
        -- intros s Hs. apply elem_of_app. auto.
        -- intros s Hs. apply elem_of_app. right. injection Hs as ->. left.
        -- intros Hnd s Hs. injection Hs as <-.
           apply NoDup_app in Hnd as (_ & Hfresh & _).
           intros Hin. apply (Hfresh s1); [auto|left].
    + (* the stop button *)
      destruct st as [[s0|] er g v en p]; simpl in *.
      * repeat split; try (intros; discriminate).
        -- intros s Hs. right.
           destruct (Hcov s Hs) as [Hc|Hc]; [|set_solver].
           injection Hc as ->. set_solver.
        -- intros s Hs. apply elem_of_union in Hs as [Hs|Hs]; [|auto].
           apply elem_of_singleton in Hs as ->. apply Hcur. reflexivity.
      * split; [exact Hcov|split; [exact Hend|split; [exact Hcur|exact Hlive]]].
Qed.

End Streams.

Lemma two_grants_run : run offered two_grants initial = Some replaced.
Proof. vm_compute. reflexivity. Qed.

(** ** Streams over renders that several settlements may share *)

Section Ticks.
Implicit Types (st : Home) (ev : Event) (evs : list Event) (s : MediaStream).

Lemma tick_singleton ev st : tick [ev] st = dispatch ev st.
Proof. reflexivity. Qed.

(** A run with a render after every event is a run of one-event ticks. *)
Lemma runTicks_singletons (tr : list Event) st :
  runTicks tick_offered ((λ ev, [ev]) <$> tr) st = run offered tr st.
Proof.
  revert st. induction tr as [|ev tr IH]; intros st; [reflexivity|].
  simpl. destruct (offered ev st); [apply IH|reflexivity].
Qed.

Lemma handle_ended ev st : ended st ⊆ ended (handle ev st).
Proof.
  destruct st as [s0 er g v en p].
  destruct ev as [|[]| |e| |]; simpl; try reflexivity.
  - unfold stopCamera. simpl. destruct s0; simpl;
      [apply union_subseteq_r|reflexivity].
  - unfold captureImage. simpl.
    destruct v; [destruct (context e)|]; reflexivity.
Qed.

Lemma foldl_handle_ended evs st :
  ended st ⊆ ended (foldl (λ st ev, handle ev st) st evs).
Proof.
  revert st. induction evs as [|ev evs IH]; intros st; [reflexivity|].
  simpl. etransitivity; [apply handle_ended|apply IH].
Qed.

Lemma commit_ended_mono (prev : option MediaStream) st :
  ended st ⊆ ended (commit prev st).
Proof.
  rewrite commit_ended. destruct (decide _); [reflexivity|].
  unfold releasePrevious. destruct prev; simpl;
    [apply union_subseteq_r|reflexivity].
Qed.

Lemma tick_ended evs st : ended st ⊆ ended (tick evs st).
Proof.
  unfold tick. etransitivity; [apply foldl_handle_ended|].
  apply commit_ended_mono.
Qed.

(** The clean-up of the render that follows a tick: the stream the last
    render showed is still the stream, or its tracks are stopped. *)
Lemma tick_releases evs st s :
  stream st = Some s →
  stream (tick evs st) = Some s ∨ s ∈ ended (tick evs st).
Proof.
  intros Hs. unfold tick. rewrite commit_stream, commit_ended, Hs.
  destruct (decide _) as [E|E]; [left; symmetry; exact E|].
  right. simpl. apply elem_of_union_l, elem_of_singleton. reflexivity.
Qed.

Lemma runTicks_shown ok (ticks : list (list Event)) st1 st :
  runTicks ok ticks st1 = Some st →
  ended st1 ⊆ ended st ∧
  (∀ s, stream st1 = Some s → stream st = Some s ∨ s ∈ ended st).
Proof.
  revert st1. induction ticks as [|evs ticks IH]; intros st1 Hrun.
  - simpl in Hrun. injection Hrun as <-. split; [reflexivity|auto].
  - simpl in Hrun. destruct (ok evs st1); [|discriminate].
    destruct (IH _ Hrun) as [Hmono Hnext]. split.
    + etransitivity; [apply tick_ended|exact Hmono].
    + intros s Hs. destruct (tick_releases evs st1 s Hs) as [Hc|He].
      * apply Hnext, Hc.
      * right. apply Hmono, He.
Qed.

End Ticks.

(** Stopping, restarting and being granted another stream. *)
Lemma restart_ticks :
  runTicks tick_offered [[ClickStop]; [ClickStart]; [Settle (Granted 2%nat)]]
           live
  = Some replaced.
Proof. vm_compute. reflexivity. Qed.

(** X3: a stream that a render has shown, that is, one that was the
    [stream] state after some render, is at every later render still the
    stream in use or has had its tracks stopped, whatever happened in
    between, also when several settlements share one render. *)
Theorem shown_stream_in_use_or_stopped
    (ticks : list (list Event)) (st1 st : Home) (s : MediaStream) :
  runTicks tick_offered ticks st1 = Some st →
  stream st1 = Some s →
  stream st = Some s ∨ s ∈ ended st.
Proof.
  intros Hrun Hs.
  destruct (runTicks_shown tick_offered ticks st1 st Hrun) as [_ H].
  exact (H s Hs).
Qed.

Lemma shown_stream_in_use_or_stopped_witness :
  stream live = Some 1%nat ∧
  runTicks tick_offered [[ClickStop]; [ClickStart]; [Settle (Granted 2%nat)]]
           live
  = Some replaced ∧
  (stream replaced = Some 1%nat ∨ 1%nat ∈ ended replaced).
Proof.
  split; [reflexivity|]. split; [exact restart_ticks|].
  exact (shown_stream_in_use_or_stopped _ live replaced 1%nat
           restart_ticks eq_refl).
Defined.

(** X4: when [getUserMedia] never hands out the same stream twice, the
    stream in use has not been stopped. *)
Theorem stream_in_use_not_stopped
    (tr : list Event) (st : Home) (s : MediaStream) :
  run offered tr initial = Some st →
  NoDup (granted tr) →
  stream st = Some s →
  s ∉ ended st.
Proof.
  intros Hrun Hnd Hs.
  destruct (run_accounted offered tr st Hrun) as (_ & _ & _ & H).
  exact (H Hnd s Hs).
Qed.

Lemma stream_in_use_not_stopped_witness :
  run offered two_grants initial = Some replaced ∧
  NoDup (granted two_grants) ∧
  2%nat ∉ ended replaced.
Proof.
  assert (Hnd : NoDup (granted two_grants)).
  { apply NoDup_cons. split; [|apply NoDup_singleton].
    intros H. apply list_elem_of_singleton in H. discriminate. }
  split; [exact two_grants_run|]. split; [exact Hnd|].
  exact (stream_in_use_not_stopped two_grants replaced 2%nat
           two_grants_run Hnd eq_refl).
Defined.

(** X5: when the component unmounts, the clean-up stops the stream of
    the last render and takes nothing out of the stopped ones, and the
    video reference is detached; so every stream that some render has
    shown has its tracks stopped once the page is left. *)
Theorem unmount_stops_shown_streams
    (ticks : list (list Event)) (st1 st : Home) (s : MediaStream) :
  runTicks tick_offered ticks st1 = Some st →
  stream st1 = Some s →
  s ∈ ended (unmount st) ∧
  ended st ⊆ ended (unmount st) ∧
  videoRef (unmount st) = None.
Proof.
  intros Hrun Hs.
  destruct (runTicks_shown tick_offered ticks st1 st Hrun) as [_ H].
  assert (Hmono : ended st ⊆ ended (unmount st)).
  { unfold unmount, releasePrevious. destruct (stream st); simpl;
      [apply union_subseteq_r|reflexivity]. }
  split; [|split; [exact Hmono|reflexivity]].
  destruct (H s Hs) as [Hc|He]; [|apply Hmono, He].
  unfold unmount, releasePrevious. rewrite Hc. simpl.
  apply elem_of_union_l, elem_of_singleton. reflexivity.
Qed.

Lemma unmount_stops_shown_streams_witness :
  stream live = Some 1%nat ∧
  1%nat ∈ ended (unmount replaced) ∧ 2%nat ∈ ended (unmount replaced).
Proof.
  split; [reflexivity|]. split.
  - destruct (unmount_stops_shown_streams _ live replaced 1%nat
                restart_ticks eq_refl) as [H _].
    exact H.
  - destruct (unmount_stops_shown_streams [] replaced replaced 2%nat
                eq_refl eq_refl) as [H _].
    exact H.
Defined.

(** X18: a stream that is granted and replaced by another before any
    render has shown it is dropped with its tracks running: after the
    render it is neither the stream in use nor stopped, and unmounting
    does not stop it either. *)
Theorem stream_replaced_within_one_render_not_stopped
    (st : Home) (s1 s2 : MediaStream) :
  s1 ≠ s2 → stream st ≠ Some s1 → s1 ∉ ended st →
  stream (tick [Settle (Granted s1); Settle (Granted s2)] st) = Some s2 ∧
  (s1 ∉ ended (tick [Settle (Granted s1); Settle (Granted s2)] st)) ∧
  (s1 ∉ ended (unmount (tick [Settle (Granted s1); Settle (Granted s2)] st))) ∧
  ((2 ≤ pending st)%nat →
   tick_offered [Settle (Granted s1); Settle (Granted s2)] st = true).
Proof.
  intros Hne Hcur Hend.
  assert (Hs : stream (tick [Settle (Granted s1); Settle (Granted s2)] st)
               = Some s2)
    by (unfold tick; rewrite commit_stream; reflexivity).
  assert (He : s1 ∉ ended (tick [Settle (Granted s1); Settle (Granted s2)] st)).
  { unfold tick. rewrite commit_ended.
    destruct st as [[s0|] er g v en p]; simpl in *.
    - destruct (decide (Some s0 = Some s2)); simpl; [exact Hend|].
      intros Hin. apply elem_of_union in Hin as [Hin|Hin]; [|auto].
      apply elem_of_singleton in Hin. congruence.
    - exact Hend. }
  split; [exact Hs|]. split; [exact He|]. split.
  - unfold unmount, releasePrevious. rewrite Hs. simpl.
    intros Hin. apply elem_of_union in Hin as [Hin|Hin]; [|auto].
    apply elem_of_singleton in Hin. congruence.
  - intros Hp. simpl. apply bool_decide_eq_true_2. exact Hp.
Qed.

Lemma stream_replaced_within_one_render_not_stopped_witness :
  tick_offered [Settle (Granted 1%nat); Settle (Granted 2%nat)]
               (dispatch ClickStart (dispatch ClickStart initial)) = true ∧
  1%nat ∉ ended (tick [Settle (Granted 1%nat); Settle (Granted 2%nat)]
                      (dispatch ClickStart (dispatch ClickStart initial))).
Proof.
  assert (Hne : 1%nat ≠ 2%nat) by discriminate.
  assert (Hcur : stream (dispatch ClickStart (dispatch ClickStart initial))
                 ≠ Some 1%nat) by discriminate.
  assert (Hend : 1%nat ∉ ended (dispatch ClickStart
                                  (dispatch ClickStart initial)))
    by (intros H; apply elem_of_empty in H; exact H).
  destruct (stream_replaced_within_one_render_not_stopped
              (dispatch ClickStart (dispatch ClickStart initial))
              1%nat 2%nat Hne Hcur Hend) as (_ & He & _ & Hoff).
  split; [|exact He].
  apply Hoff. simpl. lia.
Defined.

(** ** The text in place of the video *)

Section Placeholder.
Implicit Types (st : Home) (ev : Event).

Lemma dispatch_error ev st :
  error (dispatch ev st)
  = match ev with
    | ClickStart => None
    | Settle Rejected => Some camera_error_message
    | _ => error st
    end.
Proof.
  unfold dispatch. rewrite commit_error.
  destruct st as [s er g v en p].
  destruct ev as [|[]| |e| |]; try reflexivity.
  - unfold handle, stopCamera. simpl. destruct s; reflexivity.
  - unfold handle, captureImage. simpl.
    destruct v; [destruct (context e)|]; reflexivity.
Qed.

Lemma reachable_error st :
  reachable st → error st = None ∨ error st = Some camera_error_message.
Proof.
  intros [tr Hrun].
  apply (run_invariant offered
           (λ st, error st = None ∨ error st = Some camera_error_message))
    with (tr := tr) (st := initial); [|left; reflexivity|exact Hrun].
  intros ev st0 Hinv _. rewrite dispatch_error.
  destruct ev as [|[]| | | |]; auto.
Qed.

End Placeholder.

(** X6: the only message the running page ever holds is the fixed one, so
    the placeholder reads the fixed message when [error] is set and
    "カメラオフ" when it is not, and there is no placeholder while a stream
    is set. *)
Theorem placeholder_text (st : Home) :
  reachable st →
  (error st = None ∨ error st = Some camera_error_message) ∧
  placeholder st
  = match stream st, error st with
    | Some _, _ => None
    | None, Some _ => Some camera_error_message
    | None, None => Some camera_off_label
    end.
Proof.
  intros Hr. pose proof (reachable_error st Hr) as He.
  split; [exact He|]. unfold placeholder.
  destruct (stream st); [reflexivity|].
  destruct He as [-> | ->]; reflexivity.
Qed.

Lemma placeholder_text_witness :
  reachable (start Rejected initial) ∧
  placeholder (start Rejected initial) = Some camera_error_message.
Proof.
  assert (Hr : reachable (start Rejected initial))
    by (exists [ClickStart; Settle Rejected]; reflexivity).
  split; [exact Hr|].
  destruct (placeholder_text (start Rejected initial) Hr) as [_ H]. exact H.
Defined.



(** ** The gallery over whole runs *)

Section GalleryRuns.
Implicit Types (st : Home) (ev : Event) (tr : list Event).
Implicit Types (g : list CapturedImage) (img : CapturedImage) (key : string).

Lemma toggled_id img : id (toggled img) = id img.
Proof. reflexivity. Qed.

Lemma toggleIn_ids key g : id <$> toggleIn key g = id <$> g.
Proof.
  unfold toggleIn. rewrite <- list_fmap_compose. apply list_fmap_ext.
  intros i img _. simpl. destruct (decide (id img = key)); reflexivity.
Qed.

Lemma keepUnselected_ids_sublist g :
  (id <$> keepUnselected g) `sublist_of` (id <$> g).
Proof. apply fmap_sublist, sublist_filter. Qed.

Lemma dispatch_capturedImages ev st :
  capturedImages (dispatch ev st)
  = match ev with
    | ClickCapture e =>
        match videoRef st with
        | Some _ =>
            if context e then capturedImages st ++ [newImage e]
            else capturedImages st
        | None => capturedImages st
        end
    | ClickTile key => toggleIn key (capturedImages st)
    | ClickDelete => keepUnselected (capturedImages st)
    | _ => capturedImages st
    end.
Proof.
  unfold dispatch. rewrite commit_capturedImages.
  destruct st as [s er g v en p].
  destruct ev as [|[]| |e| |]; try reflexivity.
  - apply stopCamera_capturedImages.
  - unfold handle, captureImage. simpl.
    destruct v; [destruct (context e)|]; reflexivity.
Qed.

Lemma readings_snoc tr ev :
  readings (tr ++ [ev])
  = readings tr ++ match ev with
                   | ClickCapture e => if context e then [now_id e] else []
                   | _ => []
                   end.
Proof.
  unfold readings. rewrite omap_app. f_equal.
  destruct ev as [|[]| |e| |]; try reflexivity.
  simpl. destruct (context e); reflexivity.
Qed.

(** Every id in the gallery comes from a reading of the run, and the ids
    are pairwise distinct when the readings are. *)
Lemma run_ids ok tr st :
  run ok tr initial = Some st →
  (∀ x, x ∈ id <$> capturedImages st → x ∈ image_id <$> readings tr) ∧
  (NoDup (readings tr) → NoDup (id <$> capturedImages st)).
Proof.
  revert tr st. apply run_trace_invariant.
  - split; [intros x Hx; inversion Hx|intros _; constructor].
  - intros tr st ev [Hsub Hnd] _.
    rewrite dispatch_capturedImages, readings_snoc.
    assert (Hkeep : (∀ x, x ∈ id <$> capturedImages st
                          → x ∈ image_id <$> (readings tr ++ [])) ∧
                    (NoDup (readings tr ++ []) →
                     NoDup (id <$> capturedImages st)))
      by (rewrite app_nil_r; auto).
    destruct ev as [|[]| |e|key|]; try exact Hkeep.
    + (* a capture *)
      destruct (context e); [|destruct (videoRef st); exact Hkeep].
      destruct (videoRef st).
      * split.
        -- intros x. rewrite !fmap_app, !elem_of_app. simpl.
           intros [Hx|Hx]; [left; auto|right; exact Hx].
        -- intros Hn. apply NoDup_app in Hn as (Hn & Hfresh & _).
           rewrite fmap_app. apply NoDup_app.
           split; [auto|]. split; [|apply NoDup_singleton].
           intros x Hx Hx'. apply list_elem_of_singleton in Hx'. subst x.
           apply Hsub in Hx. apply list_elem_of_fmap in Hx as (t & Ht & Hin).
           apply (inj image_id) in Ht. subst t.
           apply (Hfresh _ Hin). left.
      * split.
        -- intros x Hx. rewrite fmap_app, elem_of_app. left. auto.
        -- intros Hn. apply NoDup_app in Hn as (Hn & _). auto.
    + (* a tile click *)
      rewrite toggleIn_ids. exact Hkeep.
    + (* the delete button *)
      destruct Hkeep as [Hsub' Hnd'].
      pose proof (keepUnselected_ids_sublist (capturedImages st)) as Hsl.
      split.
      * intros x Hx. apply Hsub'. eapply elem_of_sublist; eassumption.
      * intros Hn. eapply sublist_NoDup; [apply Hnd', Hn|exact Hsl].
Qed.

Lemma selectedCount_toggled_at g (i : nat) img :
  g !! i = Some img →
  selectedCount (<[i := toggled img]> g)
  = if selected img then Nat.pred (selectedCount g) else S (selectedCount g).
Proof.
  unfold selectedCount. revert i.
  induction g as [|x g IH]; intros i Hi; [discriminate|].
  destruct i as [|i]; simpl in Hi.
  - injection Hi as ->. simpl insert.
    destruct img as [a b [] c]; cbn [selected].
    + rewrite filter_cons_False by (simpl; discriminate).
      rewrite filter_cons_True by reflexivity. reflexivity.
    + rewrite filter_cons_True by reflexivity.
      rewrite filter_cons_False by (simpl; discriminate). reflexivity.
  - simpl insert. specialize (IH i Hi).
    assert (Hpos : selected img = true →
                   (0 < length (filter (λ img, selected img = true) g))%nat).
    { intros Hs. apply Nat.neq_0_lt_0. intros Hz.
      apply length_zero_iff_nil in Hz.
      assert (Hin : img ∈ filter (λ img, selected img = true) g).
      { apply list_elem_of_filter. split; [exact Hs|].
        eapply list_elem_of_lookup_2, Hi. }
      rewrite Hz in Hin. inversion Hin. }
    destruct (selected x) eqn:Ex.
    + rewrite !filter_cons_True by exact Ex. simpl. rewrite IH.
      destruct (selected img); [|reflexivity].
      specialize (Hpos eq_refl). lia.
    + rewrite !filter_cons_False by (rewrite Ex; discriminate). exact IH.
Qed.

Lemma toggleIn_at g (i : nat) img :
  NoDup (id <$> g) → g !! i = Some img →
  toggleIn (id img) g = <[i := toggled img]> g.
Proof.
  intros Hnd Hi. apply list_eq. intros j. rewrite toggleIn_lookup.
  destruct (decide (i = j)) as [<-|Hne].
  - rewrite list_lookup_insert_eq by (eapply lookup_lt_Some, Hi).
    rewrite Hi. simpl. rewrite decide_True by reflexivity. reflexivity.
  - rewrite list_lookup_insert_ne by exact Hne.
    destruct (g !! j) as [img'|] eqn:Hj; [|reflexivity]. simpl.
    rewrite decide_False; [reflexivity|].
    intros E. apply Hne.
    apply (NoDup_lookup (id <$> g) i j (id img)); [exact Hnd| |].
    + rewrite list_lookup_fmap, Hi. reflexivity.
    + rewrite list_lookup_fmap, Hj. simpl. f_equal. exact E.
Qed.

Lemma keepUnselected_toggleIn key g :
  Forall (λ img, selected img = false) g →
  keepUnselected (toggleIn key g) = filter (λ img, id img ≠ key) g.
Proof.
  unfold keepUnselected, toggleIn.
  induction 1 as [|img g Hs _ IH]; [reflexivity|].
  rewrite fmap_cons. destruct (decide (id img = key)) as [E|E].
  - rewrite filter_cons_False by (simpl; rewrite Hs; discriminate).
    rewrite filter_cons_False by (intros Hne; exact (Hne E)). exact IH.
  - rewrite filter_cons_True by (rewrite Hs; reflexivity).
    rewrite filter_cons_True by exact E. f_equal. exact IH.
Qed.

Lemma keepUnselected_length g :
  (length (keepUnselected g) + selectedCount g)%nat = length g.
Proof.
  rewrite (Permutation_length (keepUnselected_split g)), length_app.
  reflexivity.
Qed.

Lemma existsb_selected_count g :
  existsb selected g = bool_decide (0 < selectedCount g)%nat.
Proof.
  unfold selectedCount. induction g as [|img g IH]; [reflexivity|].
  simpl existsb. destruct (selected img) eqn:E.
  - rewrite filter_cons_True by exact E. reflexivity.
  - rewrite filter_cons_False by (rewrite E; discriminate). exact IH.
Qed.

End GalleryRuns.

Lemma deleteButtonShown_count (st : Home) :
  deleteButtonShown st
  = bool_decide (0 < selectedCount (capturedImages st))%nat.
Proof.
  unfold deleteButtonShown. rewrite existsb_selected_count.
  destruct (capturedImages st); reflexivity.
Qed.

Lemma toggleIn_comm (k1 k2 : string) (g : list CapturedImage) :
  toggleIn k1 (toggleIn k2 g) = toggleIn k2 (toggleIn k1 g).
Proof.
  unfold toggleIn. rewrite <- !list_fmap_compose. apply list_fmap_ext.
  intros i img _. simpl.
  destruct (decide (id img = k1)) as [E1|E1],
           (decide (id img = k2)) as [E2|E2]; simpl;
    rewrite ?decide_True by assumption;
    rewrite ?decide_False by assumption; reflexivity.
Qed.

(** The state in which both pictures of the sample run are in the gallery
    and the first is deleted. *)
Lemma sample_run :
  run offered
      [ClickStart; Settle (Granted 1%nat); ClickCapture shot_a;
       ClickCapture shot_b; ClickTile (id (newImage shot_a)); ClickDelete]
      initial
  = Some (cameraOn 1%nat [newImage shot_b]).
Proof. vm_compute. reflexivity. Qed.

(** X8: over a whole run, with captures, tile clicks, deletions, stops and
    restarts in any order, every id in the gallery is ["img-"] followed by
    a [Date.now()] reading of a capture of that run; and the ids are
    pairwise distinct when those readings are. *)
Theorem gallery_ids_distinct (tr : list Event) (st : Home) :
  run offered tr initial = Some st →
  (∀ img, img ∈ capturedImages st →
          ∃ t, t ∈ readings tr ∧ id img = image_id t) ∧
  (NoDup (readings tr) → NoDup (id <$> capturedImages st)).
Proof.
  intros Hrun. destruct (run_ids offered tr st Hrun) as [Hsub Hdist].
  split; [|exact Hdist].
  intros img Hin.
  assert (Hid : id img ∈ id <$> capturedImages st)
    by (apply list_elem_of_fmap_2; exact Hin).
  apply Hsub in Hid. apply list_elem_of_fmap in Hid as (t & Ht & Hin').
  exists t. split; assumption.
Qed.

Lemma gallery_ids_distinct_witness :
  NoDup (readings
           [ClickStart; Settle (Granted 1%nat); ClickCapture shot_a;
            ClickCapture shot_b; ClickTile (id (newImage shot_a));
            ClickDelete]) ∧
  NoDup (id <$> capturedImages (cameraOn 1%nat [newImage shot_b])).
Proof.
  assert (Hnd : NoDup (readings
           [ClickStart; Settle (Granted 1%nat); ClickCapture shot_a;
            ClickCapture shot_b; ClickTile (id (newImage shot_a));
            ClickDelete])).
  { apply NoDup_cons. split; [|apply NoDup_singleton].
    intros H. apply list_elem_of_singleton in H. discriminate. }
  split; [exact Hnd|].
  destruct (gallery_ids_distinct _ _ sample_run) as [_ H]. exact (H Hnd).
Defined.

(** X9: tile clicks commute: clicking two tiles in either order gives the
    same gallery, for the handlers and for the clicks with their
    re-renders. *)
Theorem tile_clicks_commute (k1 k2 : string) (st : Home) :
  toggleImageSelection k1 (toggleImageSelection k2 st)
  = toggleImageSelection k2 (toggleImageSelection k1 st) ∧
  capturedImages (dispatch (ClickTile k1) (dispatch (ClickTile k2) st))
  = capturedImages (dispatch (ClickTile k2) (dispatch (ClickTile k1) st)).
Proof.
  split.
  - destruct st as [s er g v en p].
    unfold toggleImageSelection, setCapturedImages. simpl.
    rewrite toggleIn_comm. reflexivity.
  - rewrite !dispatch_capturedImages. apply toggleIn_comm.
Qed.

(** X10: in a gallery whose ids are pairwise distinct, a click on the tile
    of the image at position [i] replaces that one entry by its toggled
    copy and leaves the list otherwise as it is, so the number of selected
    images goes up or down by exactly one. *)
Theorem tile_click_flips_one (st : Home) (i : nat) (img : CapturedImage) :
  NoDup (id <$> capturedImages st) →
  capturedImages st !! i = Some img →
  capturedImages (dispatch (ClickTile (id img)) st)
  = <[i := toggled img]> (capturedImages st) ∧
  selectedCount (capturedImages (dispatch (ClickTile (id img)) st))
  = if selected img then Nat.pred (selectedCount (capturedImages st))
    else S (selectedCount (capturedImages st)).
Proof.
  intros Hnd Hi. rewrite dispatch_capturedImages.
  rewrite (toggleIn_at _ i img Hnd Hi).
  split; [reflexivity|]. apply selectedCount_toggled_at, Hi.
Qed.

Lemma tile_click_flips_one_witness :
  NoDup (id <$> capturedImages picked) ∧
  capturedImages picked !! 1%nat = Some (newImage shot_b) ∧
  selectedCount (capturedImages (dispatch (ClickTile (id (newImage shot_b)))
                                          picked))
  = 2%nat.
Proof.
  assert (Hnd : NoDup (id <$> capturedImages picked)).
  { apply NoDup_cons. split; [|apply NoDup_singleton].
    intros H. apply list_elem_of_singleton in H. discriminate. }
  split; [exact Hnd|]. split; [reflexivity|].
  destruct (tile_click_flips_one picked 1%nat (newImage shot_b) Hnd eq_refl)
    as [_ H].
  exact H.
Defined.

(** X11: with nothing selected, clicking a tile and then the delete button
    removes exactly the images with the tile's id and leaves all others,
    unchanged and in order. *)
Theorem select_then_delete_removes_that_id (key : string) (st : Home) :
  Forall (λ img, selected img = false) (capturedImages st) →
  capturedImages (dispatch ClickDelete (dispatch (ClickTile key) st))
  = filter (λ img, id img ≠ key) (capturedImages st).
Proof.
  intros Hnone. rewrite !dispatch_capturedImages.
  apply keepUnselected_toggleIn, Hnone.
Qed.

Lemma select_then_delete_removes_that_id_witness :
  Forall (λ img, selected img = false)
         (capturedImages (captures [shot_a; shot_b] live)) ∧
  capturedImages
    (dispatch ClickDelete
       (dispatch (ClickTile (id (newImage shot_a)))
                 (captures [shot_a; shot_b] live)))
  = [newImage shot_b].
Proof.
  assert (Hnone : Forall (λ img, selected img = false)
                         (capturedImages (captures [shot_a; shot_b] live)))
    by (repeat constructor).
  split; [exact Hnone|].
  exact (select_then_delete_removes_that_id (id (newImage shot_a))
           (captures [shot_a; shot_b] live) Hnone).
Defined.

(** X12: the delete button is rendered exactly when at least one image is
    selected (the outer test for a non-empty gallery adds nothing); the
    click removes as many images as were selected, so whenever the button
    is there the gallery gets shorter. *)
Theorem delete_button_removes_selected_count (st : Home) :
  deleteButtonShown st
  = bool_decide (0 < selectedCount (capturedImages st))%nat ∧
  (length (capturedImages (dispatch ClickDelete st))
   + selectedCount (capturedImages st))%nat
  = length (capturedImages st) ∧
  (deleteButtonShown st = true →
   (length (capturedImages (dispatch ClickDelete st))
    < length (capturedImages st))%nat).
Proof.
  rewrite deleteButtonShown_count, dispatch_capturedImages.
  pose proof (keepUnselected_length (capturedImages st)) as Hlen.
  split; [reflexivity|]. split; [exact Hlen|].
  intros Hshown. apply bool_decide_eq_true in Hshown. lia.
Qed.

Lemma delete_button_removes_selected_count_witness :
  deleteButtonShown picked = true ∧
  (length (capturedImages (dispatch ClickDelete picked))
   < length (capturedImages picked))%nat.
Proof.
  split; [reflexivity|].
  destruct (delete_button_removes_selected_count picked) as (_ & _ & H).
  apply H. reflexivity.
Defined.

(** X13: a capture never selects anything: the number of selected images
    and the presence of the delete button are the same before and after
    the capture click. *)
Theorem capture_keeps_selection (e : Shot) (st : Home) :
  selectedCount (capturedImages (dispatch (ClickCapture e) st))
  = selectedCount (capturedImages st) ∧
  deleteButtonShown (dispatch (ClickCapture e) st) = deleteButtonShown st.
Proof.
  assert (Hcount : selectedCount (capturedImages (dispatch (ClickCapture e) st))
                   = selectedCount (capturedImages st)).
  { rewrite dispatch_capturedImages.
    destruct (videoRef st); [|reflexivity].
    destruct (context e); [|reflexivity].
    unfold selectedCount. rewrite filter_app, length_app.
    rewrite filter_cons_False by discriminate. simpl. lia. }
  split; [exact Hcount|].
  rewrite !deleteButtonShown_count, Hcount. reflexivity.
Qed.

(** X14: on the running page the capture button, whenever it is rendered,
    finds the video mounted: its click appends the new image if the 2D
    context was obtained and changes nothing otherwise. *)
Theorem capture_button_appends (e : Shot) (st : Home) :
  reachable st →
  offered (ClickCapture e) st = true →
  capturedImages (dispatch (ClickCapture e) st)
  = capturedImages st ++ (if context e then [newImage e] else []).
Proof.
  intros Hr Hoff. simpl in Hoff. apply bool_decide_eq_true in Hoff.
  rewrite dispatch_capturedImages.
  apply reachable_rendered in Hr.
  destruct (videoRef st) eqn:Hv.
  - destruct (context e); [reflexivity|]. rewrite app_nil_r. reflexivity.
  - exfalso. destruct (stream st) eqn:Hs; [|congruence].
    destruct Hr as [_ Hr]. destruct Hr as [? ?]; [eauto|discriminate].
Qed.

Lemma capture_button_appends_witness :
  reachable live ∧
  offered (ClickCapture shot_a) live = true ∧
  capturedImages (dispatch (ClickCapture shot_a) live) = [newImage shot_a].
Proof.
  assert (Hr : reachable live)
    by (exists [ClickStart; Settle (Granted 1%nat)]; reflexivity).
  split; [exact Hr|]. split; [reflexivity|].
  exact (capture_button_appends shot_a live Hr eq_refl).
Defined.

(** X15: no event rewrites a picture.  Every image in the gallery after an
    event is either the one the capture just made, or has the id, the data
    URL and the timestamp of an image that was there before. *)
Theorem images_never_rewritten
    (ev : Event) (st : Home) (img' : CapturedImage) :
  img' ∈ capturedImages (dispatch ev st) →
  (∃ img, img ∈ capturedImages st ∧ id img' = id img ∧
          dataUrl img' = dataUrl img ∧ timestamp img' = timestamp img) ∨
  (∃ e, ev = ClickCapture e ∧ img' = newImage e).
Proof.
  rewrite dispatch_capturedImages.
  assert (Hold : img' ∈ capturedImages st →
                 ∃ img, img ∈ capturedImages st ∧ id img' = id img ∧
                        dataUrl img' = dataUrl img ∧
                        timestamp img' = timestamp img)
    by (intros H; exists img'; auto).
  destruct ev as [|[]| |e|key|]; try (intros H; left; exact (Hold H)).
  - destruct (videoRef st); [|intros H; left; exact (Hold H)].
    destruct (context e); [|intros H; left; exact (Hold H)].
    intros H. apply elem_of_app in H as [H|H]; [left; exact (Hold H)|].
    apply list_elem_of_singleton in H. right. exists e. auto.
  - intros H. left. unfold toggleIn in H.
    apply list_elem_of_fmap in H as (img & -> & Hin).
    exists img. split; [exact Hin|].
    destruct (decide (id img = key)); auto.
  - intros H. left. apply keepUnselected_elem in H as [H _]. exact (Hold H).
Qed.

Lemma images_never_rewritten_witness :
  toggled (newImage shot_a)
  ∈ capturedImages (dispatch (ClickTile (id (newImage shot_a)))
                             (captures [shot_a; shot_b] live)) ∧
  ∃ img, img ∈ capturedImages (captures [shot_a; shot_b] live) ∧
         dataUrl (toggled (newImage shot_a)) = dataUrl img.
Proof.
  assert (Hin : toggled (newImage shot_a)
                ∈ capturedImages (dispatch (ClickTile (id (newImage shot_a)))
                                           (captures [shot_a; shot_b] live)))
    by left.
  split; [exact Hin|].
  destruct (images_never_rewritten _ _ _ Hin) as [(img & H1 & _ & H2 & _)|(e & He & _)].
  - exists img. auto.
  - discriminate He.
Defined.

(** The ids of the gallery, in gallery order, are among the ids made from
    the readings of the run, in capture order. *)
Lemma run_ids_sublist ok (tr : list Event) (st : Home) :
  run ok tr initial = Some st →
  (id <$> capturedImages st) `sublist_of` (image_id <$> readings tr).
Proof.
  revert tr st. apply run_trace_invariant.
  - constructor.
  - intros tr st ev Hsub _.
    rewrite dispatch_capturedImages, readings_snoc, fmap_app.
    assert (Hmore : ∀ l, (id <$> capturedImages st)
                         `sublist_of` ((image_id <$> readings tr) ++ l))
      by (intros l; apply sublist_inserts_r, Hsub).
    destruct ev as [|[]| |e|key|]; try apply Hmore.
    + destruct (videoRef st); [|apply Hmore].
      destruct (context e); [|apply Hmore].
      rewrite fmap_app. apply sublist_app; [exact Hsub|reflexivity].
    + rewrite toggleIn_ids. apply Hmore.
    + etransitivity; [apply keepUnselected_ids_sublist|apply Hmore].
Qed.

(** X16: over a whole run the gallery lists the pictures in the order they
    were taken: its ids, in gallery order, are a subsequence of the ids
    made from the run's readings in capture order. *)
Theorem gallery_in_capture_order (tr : list Event) (st : Home) :
  run offered tr initial = Some st →
  (id <$> capturedImages st) `sublist_of` (image_id <$> readings tr) ∧
  (length (capturedImages st) ≤ length (readings tr))%nat.
Proof.
  intros Hrun. pose proof (run_ids_sublist offered tr st Hrun) as Hsub.
  split; [exact Hsub|].
  apply sublist_length in Hsub. rewrite !length_fmap in Hsub. exact Hsub.
Qed.

Lemma gallery_in_capture_order_witness :
  (id <$> capturedImages (cameraOn 1%nat [newImage shot_b]))
  `sublist_of`
  (image_id <$> readings
     [ClickStart; Settle (Granted 1%nat); ClickCapture shot_a;
      ClickCapture shot_b; ClickTile (id (newImage shot_a)); ClickDelete]).
Proof.
  destruct (gallery_in_capture_order _ _ sample_run) as [H _]. exact H.
Defined.

(** X17: no event takes a stream out of the stopped ones, whether the
    camera is on or off; and an event after which the stream that was in
    use no longer is (the stop button, or another stream being granted)
    stops that stream's tracks. *)
Theorem stream_out_of_use_is_stopped (ev : Event) (st : Home) :
  ended st ⊆ ended (dispatch ev st) ∧
  (∀ s, stream st = Some s →
        stream (dispatch ev st) ≠ Some s → s ∈ ended (dispatch ev st)).
Proof.
  split.
  - rewrite <- tick_singleton. apply tick_ended.
  - intros s Hs Hout. rewrite <- tick_singleton in *.
    destruct (tick_releases [ev] st s Hs) as [Hc|He]; [contradiction|exact He].
Qed.

Lemma stream_out_of_use_is_stopped_witness :
  stream live = Some 1%nat ∧
  stream (dispatch (Settle (Granted 2%nat)) live) ≠ Some 1%nat ∧
  1%nat ∈ ended (dispatch (Settle (Granted 2%nat)) live).
Proof.
  assert (Hne : stream (dispatch (Settle (Granted 2%nat)) live) ≠ Some 1%nat)
    by discriminate.
  split; [reflexivity|]. split; [exact Hne|].
  destruct (stream_out_of_use_is_stopped (Settle (Granted 2%nat)) live)
    as [_ H].
  exact (H 1%nat eq_refl Hne).
Defined.
